(** * LC3370: count-leading-zeros and the all-ones mask of a bit width

    A shallow embedding of [3-pipeline/csrc/LC3370.c]: the helper [clz], the
    function [smallestNumber] and the driver [main] that stores three results
    at the byte addresses 4, 8 and 12.

    Integers are modelled as [Z] with the wrap-around of the 32-bit C types
    written out.  A shift whose count is outside [0, 32) has no defined result
    in C; the embedding makes such a shift fail ([None]), so every function
    lives in the [option] monad and "the code returns v" is [f x = Some v]. *)

From Equations Require Import Equations.
From Stdlib Require Import ZArith Lia List.
From stdpp Require Import base option gmap.
Import ListNotations.

Local Open Scope Z_scope.

(** ** 32-bit machine integers *)

Module Int32.

Definition width : Z := 32.
Definition modulus : Z := 2 ^ width.
Definition half_modulus : Z := 2 ^ (width - 1).

(** Value ranges of [unsigned int] and [int]. *)
Definition is_u32 (z : Z) : Prop := 0 <= z < modulus.
Definition is_i32 (z : Z) : Prop := - half_modulus <= z < half_modulus.

(** Conversion to [unsigned int] (reduction modulo 2^32) and to [int]
    (two's complement wrap-around). *)
Definition to_u32 (z : Z) : Z := z mod modulus.
Definition to_i32 (z : Z) : Z := (z + half_modulus) mod modulus - half_modulus.

(** [x >> c] on an [unsigned int]: a logical right shift; no result when the
    count is negative or at least the width. *)
Definition shr_u32 (x c : Z) : option Z :=
  if (0 <=? c) && (c <? width) then Some (Z.shiftr x c) else None.

(** [a << k] on an [int], with the result wrapped to 32 bits; no result when
    the count is negative or at least the width. *)
Definition shl_i32 (a k : Z) : option Z :=
  if (0 <=? k) && (k <? width) then Some (to_i32 (Z.shiftl a k)) else None.

(** [c >> 1] on an [int]: the arithmetic right shift. *)
Definition sar_i32 (c k : Z) : Z := Z.shiftr c k.

Definition sub_i32 (a b : Z) : Z := to_i32 (a - b).
Definition sub_u32 (a b : Z) : Z := to_u32 (a - b).

End Int32.

Import Int32.

(** ** [clz] *)

(** The state of the [do ... while (c)] loop of [clz]: the remaining value
    [x], the running width [n] and the stride [c]. *)
Record clz_state : Type := ClzState { st_x : Z; st_n : Z; st_c : Z }.

(** One round of the loop body:
<<
        unsigned int y = x >> c;
        if (y) { n -= c; x = y; }
        c >>= 1;
>> *)
Definition clz_round (s : clz_state) : option clz_state :=
  match shr_u32 (st_x s) (st_c s) with
  | None => None
  | Some y =>
      let c' := sar_i32 (st_c s) 1 in
      if negb (y =? 0)
      then Some (ClzState y (sub_i32 (st_n s) (st_c s)) c')
      else Some (ClzState (st_x s) (st_n s) c')
  end.

(** Case analysis on a computed value that keeps the equation, so that the
    termination proof of the loop can refer to the round just executed. *)
Definition inspect {A : Type} (a : A) : {b : A | a = b} := exist _ a eq_refl.

(** The loop [do { round } while (c);].  Besides the final state it returns
    the strides of the rounds it executed, in order (a ghost trace: the C
    code does not compute it). *)
Equations? clz_loop (s : clz_state) : option (clz_state * list Z)
  by wf (Z.to_nat (st_c s)) lt :=
  clz_loop s with inspect (clz_round s) => {
    | exist _ None _ => None
    | exist _ (Some s') Hr with inspect (st_c s' =? 0) => {
        | exist _ true _ => Some (s', [st_c s])
        | exist _ false Hc =>
            match clz_loop s' with
            | None => None
            | Some (r, strides) => Some (r, st_c s :: strides)
            end } }.
Proof.
  (* a round that succeeded had 0 <= c < 32 and left c / 2, which is smaller
     than c as soon as it is not 0 *)
  apply Z.eqb_neq in Hc. revert Hr Hc.
  unfold clz_round, shr_u32, sar_i32.
  destruct (0 <=? st_c s) eqn:Hlo; simpl; [|discriminate].
  destruct (st_c s <? width); [|discriminate].
  apply Z.leb_le in Hlo.
  intros Hr Hc.
  assert (st_c s' = st_c s / 2) as Hc'.
  { replace (st_c s / 2) with (Z.shiftr (st_c s) 1)
      by (rewrite Z.shiftr_div_pow2 by lia; reflexivity).
    destruct (negb (Z.shiftr (st_x s) (st_c s) =? 0));
      inversion Hr; reflexivity. }
  rewrite Hc' in *. clear Hr Hc'.
  Z.to_euclidean_division_equations. lia.
Qed.

(** <<
    unsigned int clz(unsigned int x)
    {
        int n = 32, c = 16;
        do { ... } while (c);
        return n - x;
    }
>>  In [n - x] the [int] n is converted to [unsigned int] first. *)
Definition clz_run (x : Z) : option (clz_state * list Z) :=
  clz_loop (ClzState x 32 16).

Definition clz (x : Z) : option Z :=
  match clz_run x with
  | None => None
  | Some (s, _) => Some (sub_u32 (to_u32 (st_n s)) (st_x s))
  end.

(** The strides of the rounds executed by [clz x]. *)
Definition clz_strides (x : Z) : option (list Z) :=
  match clz_run x with
  | None => None
  | Some (_, strides) => Some strides
  end.

(** ** [smallestNumber] *)

(** <<
    int smallestNumber(int n) {
        int bit_len = (1 << (32-clz(n)))-1;
        return bit_len;
    }
>>  The argument of [clz] is converted to [unsigned int]; [32 - clz(n)] is an
    [unsigned int] subtraction; the shift and the final subtraction are [int]
    operations. *)
Definition smallestNumber (n : Z) : option Z :=
  c ← clz (to_u32 n);
  p ← shl_i32 1 (sub_u32 32 c);
  let bit_len := sub_i32 p 1 in
  Some bit_len.

(** ** Memory and the driver *)

(** The machine on which [main] runs: a byte-addressed memory (address to
    byte value) and, as a ghost trace, the word stores performed so far, oldest
    first, each as (address, value). *)
Record machine : Type := Machine { mem : gmap Z Z; stores : list (Z * Z) }.

(** Byte [i] of the 32-bit pattern of [v]. *)
Definition byte_of (v i : Z) : Z := Z.land (Z.shiftr v (8 * i)) 255.

(** A 32-bit word occupies the four bytes from its address on, least
    significant byte first (the byte order of the RV32 target; the results
    below only need loads and stores to agree on it). *)
Definition write_word (a v : Z) (m : gmap Z Z) : gmap Z Z :=
  <[a + 3 := byte_of v 3]>
    (<[a + 2 := byte_of v 2]>
       (<[a + 1 := byte_of v 1]>
          (<[a := byte_of v 0]> m))).

(** Reading an [int] back from memory; [None] when a byte was never written. *)
Definition load_word (m : gmap Z Z) (a : Z) : option Z :=
  b0 ← m !! a;
  b1 ← m !! (a + 1);
  b2 ← m !! (a + 2);
  b3 ← m !! (a + 3);
  Some (to_i32 (b0 + Z.shiftl b1 8 + Z.shiftl b2 16 + Z.shiftl b3 24)).

(** Computations of the driver: a state monad over [machine] that can fail. *)
Definition M (A : Type) : Type := machine -> option (A * machine).

#[local] Instance M_ret : MRet M := fun A (a : A) s => Some (a, s).
#[local] Instance M_bind : MBind M := fun A B (f : A -> M B) (m : M A) s =>
  match m s with
  | None => None
  | Some (a, s') => f a s'
  end.

(** A computation without effects that may have no result. *)
Definition lift {A : Type} (o : option A) : M A :=
  fun s => match o with None => None | Some a => Some (a, s) end.

(** [*(int * ) (a) = v;] *)
Definition store (a v : Z) : M unit :=
  fun s => Some (tt, Machine (write_word a v (mem s)) (stores s ++ [(a, v)])).

(** <<
    int main()
    {
        *(int * ) (4) = smallestNumber(1);
        *(int * ) (8) = smallestNumber(509);
        *(int * ) (12) = smallestNumber(1000);
    }
>> *)
Definition main : M unit :=
  v1 ← lift (smallestNumber 1);
  store 4 v1;;
  v2 ← lift (smallestNumber 509);
  store 8 v2;;
  v3 ← lift (smallestNumber 1000);
  store 12 v3.

(** ** Specification-side notions *)

(** The bit length of a non-negative integer: the position of its highest set
    bit plus one, and 0 for 0. *)
Definition bit_length (x : Z) : Z :=
  if x =? 0 then 0 else Z.log2 x + 1.

(** The strides visited by a loop that starts at stride [2 ^ j] and halves it
    down to 1. *)
Fixpoint halving_strides (j : nat) : list Z :=
  match j with
  | O => [1]
  | S k => 2 ^ Z.of_nat (S k) :: halving_strides k
  end.

(** ** Facts about 32-bit arithmetic and bit lengths *)

Lemma to_u32_small (z : Z) : is_u32 z -> to_u32 z = z.
Proof. unfold is_u32, to_u32. intros H. apply Z.mod_small. exact H. Qed.

Lemma to_i32_small (z : Z) : is_i32 z -> to_i32 z = z.
Proof.
  unfold is_i32, to_i32, half_modulus, modulus, width. simpl. intros H.
  rewrite Z.mod_small; lia.
Qed.

Lemma to_i32_idemp_sub (a b : Z) : to_i32 (to_i32 a - b) = to_i32 (a - b).
Proof.
  unfold to_i32.
  replace ((a + half_modulus) mod modulus - half_modulus - b + half_modulus)
    with ((a + half_modulus) mod modulus - b) by ring.
  rewrite Zminus_mod_idemp_l. f_equal. f_equal. ring.
Qed.

Lemma sub_u32_to_u32_l (a b : Z) : sub_u32 (to_u32 a) b = to_u32 (a - b).
Proof. unfold sub_u32, to_u32. apply Zminus_mod_idemp_l. Qed.

Lemma bit_length_0 : bit_length 0 = 0.
Proof. reflexivity. Qed.

Lemma bit_length_pos (x : Z) : 0 < x -> bit_length x = Z.log2 x + 1.
Proof.
  intros H. unfold bit_length.
  destruct (Z.eqb_spec x 0); [lia | reflexivity].
Qed.

Lemma bit_length_nonneg (x : Z) : 0 <= bit_length x.
Proof.
  unfold bit_length. destruct (x =? 0); [lia|].
  pose proof (Z.log2_nonneg x). lia.
Qed.

(** [bit_length x] is the least width that holds [x]. *)
Lemma bit_length_bounds (x : Z) :
  0 < x -> 2 ^ (bit_length x - 1) <= x < 2 ^ bit_length x.
Proof.
  intros H. rewrite bit_length_pos by exact H.
  replace (Z.log2 x + 1 - 1) with (Z.log2 x) by ring.
  replace (Z.log2 x + 1) with (Z.succ (Z.log2 x)) by ring.
  apply Z.log2_spec. exact H.
Qed.

Lemma bit_length_unique (x w : Z) :
  0 < w -> 2 ^ (w - 1) <= x < 2 ^ w -> bit_length x = w.
Proof.
  intros Hw Hx.
  assert (0 < x) by (pose proof (Z.pow_pos_nonneg 2 (w - 1)); lia).
  rewrite bit_length_pos by assumption.
  assert (Z.log2 x = w - 1); [|lia].
  apply Z.log2_unique; [lia|].
  replace (Z.succ (w - 1)) with w by lia. exact Hx.
Qed.

Lemma bit_length_lt_pow2 (x w : Z) :
  0 <= w -> 0 <= x < 2 ^ w -> bit_length x <= w.
Proof.
  intros Hw Hx. unfold bit_length.
  destruct (Z.eqb_spec x 0) as [|Hne]; [lia|].
  assert (Z.log2 x < w); [|lia].
  apply Z.log2_lt_pow2; lia.
Qed.

Lemma bit_length_le_mono (x y : Z) :
  0 <= x <= y -> bit_length x <= bit_length y.
Proof.
  intros H. unfold bit_length.
  destruct (Z.eqb_spec x 0), (Z.eqb_spec y 0); try lia.
  - pose proof (Z.log2_nonneg y). lia.
  - pose proof (Z.log2_le_mono x y). lia.
Qed.

(** The highest set bit of a positive [x] is bit [bit_length x - 1]. *)
Lemma bit_length_highest_set (x : Z) :
  0 < x ->
  Z.testbit x (bit_length x - 1) = true /\
  forall i, bit_length x <= i -> Z.testbit x i = false.
Proof.
  intros H. rewrite bit_length_pos by exact H. split.
  - replace (Z.log2 x + 1 - 1) with (Z.log2 x) by ring.
    apply Z.bit_log2. exact H.
  - intros i Hi. apply Z.bits_above_log2; lia.
Qed.

Lemma bit_length_log2_up (x : Z) :
  0 <= x -> bit_length x = Z.log2_up (x + 1).
Proof.
  intros H. unfold bit_length, Z.log2_up.
  destruct (Z.eqb_spec x 0) as [->|Hne]; [reflexivity|].
  replace (1 ?= x + 1) with Lt by (symmetry; apply Z.compare_lt_iff; lia).
  replace (Z.pred (x + 1)) with x by lia. lia.
Qed.

(** Dropping the low [c] bits of a value that has a bit at or above [c]
    shortens it by exactly [c] bits. *)
Lemma bit_length_shiftr (x c : Z) :
  0 <= c -> 0 <= x -> Z.shiftr x c <> 0 ->
  bit_length (Z.shiftr x c) = bit_length x - c.
Proof.
  intros Hc Hx Hy.
  assert (0 <= Z.shiftr x c) as Hy0 by (apply Z.shiftr_nonneg; exact Hx).
  assert (0 < x) as Hx0.
  { destruct (Z.eq_dec x 0) as [->|]; [|lia].
    rewrite Z.shiftr_0_l in Hy. contradiction. }
  rewrite !bit_length_pos by lia.
  rewrite Z.log2_shiftr by exact Hx0.
  assert (c <= Z.log2 x); [|lia].
  destruct (Z_lt_le_dec (Z.log2 x) c) as [Hlt|]; [exfalso|assumption].
  apply Hy. apply Z.shiftr_eq_0; assumption.
Qed.

(** ** The loop of [clz] *)

Lemma clz_loop_step (s : clz_state) :
  clz_loop s =
  match clz_round s with
  | None => None
  | Some s' =>
      if st_c s' =? 0 then Some (s', [st_c s])
      else match clz_loop s' with
           | None => None
           | Some (r, strides) => Some (r, st_c s :: strides)
           end
  end.
Proof.
  funelim (clz_loop s);
    repeat match goal with
      | E : clz_round _ = _ |- _ => rewrite E
      | E : (_ =? _) = _ |- _ => rewrite E
      end; reflexivity.
Qed.

Lemma pow2_stride_bounds (j : nat) :
  (j <= 4)%nat -> 1 <= 2 ^ Z.of_nat j <= 16.
Proof.
  intros Hj. split.
  - pose proof (Z.pow_pos_nonneg 2 (Z.of_nat j)). lia.
  - change 16 with (2 ^ 4). apply Z.pow_le_mono_r; lia.
Qed.

Lemma pow2_stride_succ (j : nat) :
  2 ^ Z.of_nat (S j) = 2 * 2 ^ Z.of_nat j.
Proof. rewrite Nat2Z.inj_succ. apply Z.pow_succ_r. lia. Qed.

(** A round at stride [c] on a value below [2 ^ (2 * c)]: the stride is
    halved, and either the value was already below [2 ^ c] and is kept, or
    its upper part replaces it and [n] drops by [c]. *)
Lemma clz_round_spec (x n c : Z) :
  1 <= c <= 16 -> 0 <= x < 2 ^ (2 * c) -> c <= n <= 32 ->
  exists x' n',
    clz_round (ClzState x n c) = Some (ClzState x' n' (c / 2)) /\
    0 <= x' < 2 ^ c /\
    n' - bit_length x' = n - bit_length x /\
    n' <= 32 /\ (2 * c <= n -> c <= n') /\
    (x = 0 <-> x' = 0).
Proof.
  intros Hc Hx Hn.
  unfold clz_round, shr_u32, sar_i32, width. simpl.
  replace (0 <=? c) with true by (symmetry; apply Z.leb_le; lia).
  replace (c <? 32) with true by (symmetry; apply Z.ltb_lt; lia).
  simpl.
  replace (Z.shiftr c 1) with (c / 2)
    by (rewrite Z.shiftr_div_pow2 by lia; reflexivity).
  assert (0 < 2 ^ c) as Hpc by (apply Z.pow_pos_nonneg; lia).
  assert (2 ^ (2 * c) = 2 ^ c * 2 ^ c) as Hsq
    by (rewrite <- Z.pow_add_r by lia; f_equal; lia).
  assert (Z.shiftr x c = x / 2 ^ c) as Hy by (apply Z.shiftr_div_pow2; lia).
  destruct (Z.eqb_spec (Z.shiftr x c) 0) as [Hz|Hnz]; simpl.
  - exists x, n. split; [reflexivity|].
    rewrite Hy in Hz. apply Z.div_small_iff in Hz; [|lia].
    repeat split; try lia.
  - exists (Z.shiftr x c), (n - c).
    split.
    { unfold sub_i32. rewrite to_i32_small; [reflexivity|].
      unfold is_i32, half_modulus, width. simpl. lia. }
    assert (0 < x) as Hx0.
    { destruct (Z.eq_dec x 0) as [->|]; [|lia].
      rewrite Z.shiftr_0_l in Hnz. contradiction. }
    split.
    { rewrite Hy. split; [apply Z.div_pos; lia|].
      apply Z.div_lt_upper_bound; lia. }
    split.
    { rewrite bit_length_shiftr by lia. lia. }
    repeat split; try lia.
Qed.

(** The loop started at stride [2 ^ j] on a value below [2 ^ (2 * 2 ^ j)]
    runs [j + 1] rounds, leaves [x] at 0 or 1 and keeps [n - bit_length x]. *)
Lemma clz_loop_spec (j : nat) :
  forall x n,
    (j <= 4)%nat ->
    0 <= x < 2 ^ (2 * 2 ^ Z.of_nat j) ->
    2 * 2 ^ Z.of_nat j <= n <= 32 ->
    exists sf,
      clz_loop (ClzState x n (2 ^ Z.of_nat j)) = Some (sf, halving_strides j) /\
      st_x sf = (if x =? 0 then 0 else 1) /\
      st_n sf - st_x sf = n - bit_length x /\
      st_c sf = 0.
Proof.
  induction j as [|j IH]; intros x n Hj Hx Hn.
  - change (2 ^ Z.of_nat 0) with 1 in *.
    destruct (clz_round_spec x n 1) as (x' & n' & Hr & Hx' & Hb & _ & _ & Hz);
      [lia | exact Hx | lia |].
    rewrite clz_loop_step, Hr. simpl.
    eexists. split; [reflexivity|]. simpl.
    change (2 ^ 1) with 2 in Hx'.
    rewrite <- Hb.
    destruct (Z.eqb_spec x 0) as [E|E].
    + apply Hz in E. subst x'. rewrite bit_length_0.
      repeat split; try reflexivity; lia.
    + assert (x' = 1) as -> by lia. change (bit_length 1) with 1.
      repeat split; try reflexivity; lia.
  - pose proof (pow2_stride_bounds (S j) Hj) as Hc.
    pose proof (pow2_stride_succ j) as Hs.
    assert (1 <= 2 ^ Z.of_nat j) as Hp
      by (pose proof (Z.pow_pos_nonneg 2 (Z.of_nat j)); lia).
    destruct (clz_round_spec x n (2 ^ Z.of_nat (S j)))
      as (x' & n' & Hr & Hx' & Hb & Hn' & Hn'' & Hz); [lia | exact Hx | lia |].
    assert (2 ^ Z.of_nat (S j) / 2 = 2 ^ Z.of_nat j) as Hhalf
      by (rewrite Hs, Z.mul_comm; apply Z.div_mul; lia).
    rewrite Hhalf in Hr.
    destruct (IH x' n') as (sf & Hl & Hxf & Hnf & Hcf);
      [lia | rewrite <- Hs; exact Hx' | lia |].
    rewrite clz_loop_step, Hr.
    cbn [st_c].
    replace (2 ^ Z.of_nat j =? 0) with false by (symmetry; apply Z.eqb_neq; lia).
    rewrite Hl.
    exists sf. split; [reflexivity|].
    split; [|split; [lia | exact Hcf]].
    rewrite Hxf.
    destruct (Z.eqb_spec x 0) as [E|E], (Z.eqb_spec x' 0) as [E'|E'];
      try reflexivity; tauto.
Qed.

(** What [clz] does on every 32-bit input: five rounds, and the result is
    32 minus the bit length. *)
Lemma clz_run_spec (x : Z) :
  is_u32 x ->
  exists sf,
    clz_run x = Some (sf, [16; 8; 4; 2; 1]) /\
    st_n sf - st_x sf = 32 - bit_length x.
Proof.
  intros Hx.
  destruct (clz_loop_spec 4 x 32) as (sf & Hl & _ & Hn & _);
    [lia | exact Hx | simpl; lia |].
  exists sf. split; [exact Hl | exact Hn].
Qed.

Lemma bit_length_u32 (x : Z) : is_u32 x -> 0 <= bit_length x <= 32.
Proof.
  intros Hx. split; [apply bit_length_nonneg|].
  apply bit_length_lt_pow2; [lia | exact Hx].
Qed.

Lemma clz_spec (x : Z) :
  is_u32 x -> clz x = Some (32 - bit_length x).
Proof.
  intros Hx. unfold clz.
  destruct (clz_run_spec x Hx) as (sf & -> & Hn).
  rewrite sub_u32_to_u32_l, Hn.
  rewrite to_u32_small; [reflexivity|].
  pose proof (bit_length_u32 x Hx). unfold is_u32, modulus, width. simpl. lia.
Qed.

Lemma clz_strides_spec (x : Z) :
  is_u32 x -> clz_strides x = Some [16; 8; 4; 2; 1].
Proof.
  intros Hx. unfold clz_strides.
  destruct (clz_run_spec x Hx) as (sf & -> & _). reflexivity.
Qed.

(** ** [smallestNumber] on its domain *)

Lemma shl_i32_in_range (a k : Z) :
  0 <= k < 32 -> shl_i32 a k = Some (to_i32 (Z.shiftl a k)).
Proof.
  intros Hk. unfold shl_i32, width.
  replace (0 <=? k) with true by (symmetry; apply Z.leb_le; lia).
  replace (k <? 32) with true by (symmetry; apply Z.ltb_lt; lia).
  reflexivity.
Qed.

Lemma bit_length_i32_nonneg (n : Z) :
  0 <= n < 2 ^ 31 -> 0 <= bit_length n <= 31.
Proof.
  intros Hn. split; [apply bit_length_nonneg|].
  apply bit_length_lt_pow2; [lia | exact Hn].
Qed.

Lemma pow2_bit_length_bounds (w : Z) :
  0 <= w <= 31 -> 1 <= 2 ^ w <= 2 ^ 31.
Proof.
  intros Hw. split.
  - pose proof (Z.pow_pos_nonneg 2 w). lia.
  - apply Z.pow_le_mono_r; lia.
Qed.

(** [(1 << w) - 1] in [int] arithmetic is [2 ^ w - 1] for every width up to
    31: at 31 the shift wraps to the least [int] and the subtraction wraps
    back. *)
Lemma mask_i32 (w : Z) :
  0 <= w <= 31 -> sub_i32 (to_i32 (Z.shiftl 1 w)) 1 = 2 ^ w - 1.
Proof.
  intros Hw. rewrite Z.shiftl_1_l. unfold sub_i32.
  rewrite to_i32_idemp_sub, to_i32_small; [reflexivity|].
  pose proof (pow2_bit_length_bounds w Hw).
  unfold is_i32, half_modulus, width. simpl. lia.
Qed.

(** On a non-negative [int] the function returns the all-ones mask of the
    argument's bit length; the wrap-around of [1 << 31] is undone by the
    subtraction. *)
Lemma smallestNumber_spec (n : Z) :
  0 <= n < 2 ^ 31 ->
  clz (to_u32 n) = Some (32 - bit_length n) /\
  smallestNumber n = Some (2 ^ bit_length n - 1).
Proof.
  intros Hn.
  pose proof (bit_length_i32_nonneg n Hn) as Hb.
  assert (is_u32 n) as Hu by (unfold is_u32, modulus, width; simpl; lia).
  assert (clz (to_u32 n) = Some (32 - bit_length n)) as Hclz
    by (rewrite to_u32_small by exact Hu; apply clz_spec; exact Hu).
  split; [exact Hclz|].
  unfold smallestNumber. rewrite Hclz. simpl.
  replace (sub_u32 32 (32 - bit_length n)) with (bit_length n).
  2:{ unfold sub_u32. rewrite to_u32_small.
      - ring.
      - unfold is_u32, modulus, width. simpl. lia. }
  rewrite shl_i32_in_range by lia. simpl.
  rewrite mask_i32 by exact Hb. reflexivity.
Qed.

Lemma bit_length_ones (w : Z) : 0 < w -> bit_length (2 ^ w - 1) = w.
Proof.
  intros Hw. apply bit_length_unique; [exact Hw|].
  assert (2 ^ w = 2 * 2 ^ (w - 1)) as E
    by (rewrite <- Z.pow_succ_r by lia; f_equal; lia).
  pose proof (Z.pow_pos_nonneg 2 (w - 1)). lia.
Qed.

(** ** The driver *)

Lemma smallestNumber_1 : smallestNumber 1 = Some 1.
Proof. vm_compute. reflexivity. Qed.

Lemma smallestNumber_509 : smallestNumber 509 = Some 511.
Proof. vm_compute. reflexivity. Qed.

Lemma smallestNumber_1000 : smallestNumber 1000 = Some 1023.
Proof. vm_compute. reflexivity. Qed.

Lemma main_run (s : machine) :
  main s =
  Some (tt, Machine (write_word 12 1023 (write_word 8 511 (write_word 4 1 (mem s))))
                    (stores s ++ [(4, 1); (8, 511); (12, 1023)])).
Proof.
  unfold main, mbind, M_bind, lift, store.
  rewrite smallestNumber_1, smallestNumber_509, smallestNumber_1000.
  cbn [mem stores]. rewrite <- !app_assoc. reflexivity.
Qed.

(** The four bytes of a word put together again give its 32-bit pattern. *)
Lemma bytes_recombine (v : Z) :
  to_i32 (byte_of v 0 + Z.shiftl (byte_of v 1) 8 + Z.shiftl (byte_of v 2) 16
          + Z.shiftl (byte_of v 3) 24) = to_i32 v.
Proof.
  unfold byte_of. simpl.
  change 255 with (Z.ones 8). rewrite !Z.land_ones by lia.
  rewrite !Z.shiftr_div_pow2, !Z.shiftl_mul_pow2 by lia.
  unfold to_i32, half_modulus, modulus, width. simpl.
  change (2 ^ 0) with 1. change (2 ^ 8) with 256.
  change (2 ^ 16) with 65536. change (2 ^ 24) with 16777216.
  Z.to_euclidean_division_equations. lia.
Qed.

(** A word that was stored can be read back, as long as it was an [int]. *)
Lemma load_write_word (m : gmap Z Z) (a v : Z) :
  is_i32 v -> load_word (write_word a v m) a = Some v.
Proof.
  intros Hv. unfold load_word, write_word.
  rewrite (lookup_insert_ne _ (a + 3) a) by lia.
  rewrite (lookup_insert_ne _ (a + 2) a) by lia.
  rewrite (lookup_insert_ne _ (a + 1) a) by lia.
  rewrite lookup_insert_eq. simpl.
  rewrite (lookup_insert_ne _ (a + 3) (a + 1)) by lia.
  rewrite (lookup_insert_ne _ (a + 2) (a + 1)) by lia.
  rewrite lookup_insert_eq. simpl.
  rewrite (lookup_insert_ne _ (a + 3) (a + 2)) by lia.
  rewrite lookup_insert_eq. simpl.
  rewrite lookup_insert_eq. simpl.
  rewrite bytes_recombine, to_i32_small by exact Hv. reflexivity.
Qed.

(** A store changes only the four bytes of its word. *)
Lemma lookup_write_word_other (m : gmap Z Z) (a v b : Z) :
  b < a \/ a + 4 <= b -> write_word a v m !! b = m !! b.
Proof.
  intros Hb. unfold write_word.
  rewrite !lookup_insert_ne by lia. reflexivity.
Qed.

Lemma load_write_word_other (m : gmap Z Z) (a v b : Z) :
  b + 4 <= a \/ a + 4 <= b ->
  load_word (write_word a v m) b = load_word m b.
Proof.
  intros Hb. unfold load_word.
  rewrite !lookup_write_word_other by lia. reflexivity.
Qed.

(** ** Concrete evaluations *)

Example clz_edges :
  (clz 1, clz 2, clz 3, clz 4, clz 509, clz 1000, clz 4294967295)
  = (Some 31, Some 30, Some 30, Some 29, Some 23, Some 22, Some 0).
Proof. vm_compute. reflexivity. Qed.

Example smallestNumber_edges :
  (smallestNumber 1, smallestNumber 2, smallestNumber 3, smallestNumber 4,
   smallestNumber 7, smallestNumber 1073741824, smallestNumber 2147483647)
  = (Some 1, Some 3, Some 3, Some 7, Some 7, Some 2147483647, Some 2147483647).
Proof. vm_compute. reflexivity. Qed.

(** Outside of the domain, on a negative [int], the shift count is 32 and
    the shift has no defined result. *)
Example smallestNumber_negative : smallestNumber (-1) = None.
Proof. vm_compute. reflexivity. Qed.

(** ** The properties of the specification *)

(** C1: for every n with 1 <= n < 2^31, [smallestNumber n] returns
    (1 << (32 - clz n)) - 1 evaluated in 32-bit arithmetic (the shift count
    is in range), and that value is 2 ^ ceil(log2 (n + 1)) - 1. *)
Theorem smallestNumber_mask (n : Z) (Hn : 1 <= n < 2 ^ 31) :
  exists c,
    clz n = Some c /\
    0 <= 32 - c < 32 /\
    smallestNumber n = Some (sub_i32 (to_i32 (Z.shiftl 1 (32 - c))) 1) /\
    sub_i32 (to_i32 (Z.shiftl 1 (32 - c))) 1 = 2 ^ Z.log2_up (n + 1) - 1.
Proof.
  assert (0 <= n < 2 ^ 31) as Hn0 by lia.
  destruct (smallestNumber_spec n Hn0) as [Hclz Hs].
  pose proof (bit_length_i32_nonneg n Hn0) as Hb.
  rewrite to_u32_small in Hclz
    by (unfold is_u32, modulus, width; simpl; lia).
  exists (32 - bit_length n).
  replace (32 - (32 - bit_length n)) with (bit_length n) by ring.
  rewrite mask_i32 by exact Hb.
  rewrite <- bit_length_log2_up by lia.
  repeat split; try assumption; lia.
Qed.

Lemma smallestNumber_mask_witness :
  1 <= 1000 < 2 ^ 31 /\
  exists c,
    clz 1000 = Some c /\
    0 <= 32 - c < 32 /\
    smallestNumber 1000 = Some (sub_i32 (to_i32 (Z.shiftl 1 (32 - c))) 1) /\
    sub_i32 (to_i32 (Z.shiftl 1 (32 - c))) 1 = 2 ^ Z.log2_up (1000 + 1) - 1.
Proof.
  assert (1 <= 1000 < 2 ^ 31) as H by lia.
  split; [exact H | exact (smallestNumber_mask 1000 H)].
Defined.

(** C2, as stated, fails: on 3 = 2^2 - 1 the code returns 3, not
    7 = 2^3 - 1. *)
Lemma smallestNumber_3_is_not_7 :
  smallestNumber (2 ^ 2 - 1) = Some 3 /\
  smallestNumber (2 ^ 2 - 1) <> Some (2 ^ (2 + 1) - 1).
Proof.
  assert (smallestNumber (2 ^ 2 - 1) = Some 3) as E
    by (vm_compute; reflexivity).
  split; [exact E|]. rewrite E. discriminate.
Qed.

(** C2, amended: for every n of the form 2^k - 1 with k >= 2 and n < 2^31
    (3, 7, 15, ...), [smallestNumber n] returns n itself, that is 2^k - 1. *)
Theorem smallestNumber_exact_mask (n k : Z)
  (Hk : 2 <= k) (Hform : n = 2 ^ k - 1) (Hn : n < 2 ^ 31) :
  smallestNumber n = Some n.
Proof.
  assert (k <= 31) as Hk31.
  { apply (Z.pow_le_mono_r_iff 2); lia. }
  assert (1 <= 2 ^ k) by (pose proof (Z.pow_pos_nonneg 2 k); lia).
  destruct (smallestNumber_spec n) as [_ Hs]; [lia|].
  rewrite Hs, Hform, bit_length_ones by lia. reflexivity.
Qed.

Lemma smallestNumber_exact_mask_witness :
  2 <= 4 /\ 15 = 2 ^ 4 - 1 /\ 15 < 2 ^ 31 /\ smallestNumber 15 = Some 15.
Proof.
  assert (2 <= 4) as H1 by lia.
  assert (15 = 2 ^ 4 - 1) as H2 by reflexivity.
  assert (15 < 2 ^ 31) as H3 by lia.
  split; [exact H1|]. split; [exact H2|]. split; [exact H3|].
  exact (smallestNumber_exact_mask 15 4 H1 H2 H3).
Defined.

(** C3: whatever the memory holds before, [main] returns, and afterwards the
    words at the byte offsets 4, 8 and 12 hold 1, 511 and 1023; the stores
    are these three, in this order, and no byte outside of the three words
    has changed. *)
Theorem main_writes_three_words (m0 : gmap Z Z) :
  exists s',
    main (Machine m0 []) = Some (tt, s') /\
    load_word (mem s') 4 = Some 1 /\
    load_word (mem s') 8 = Some 511 /\
    load_word (mem s') 12 = Some 1023 /\
    stores s' = [(4, 1); (8, 511); (12, 1023)] /\
    forall a : Z, a < 4 \/ 16 <= a -> mem s' !! a = m0 !! a.
Proof.
  eexists. split; [apply main_run|]. cbn [mem stores app].
  assert (forall v, 0 <= v < 1024 -> is_i32 v) as Hsmall
    by (intros v Hv; unfold is_i32, half_modulus, width; simpl; lia).
  repeat split.
  - rewrite !load_write_word_other by lia.
    apply load_write_word, Hsmall. lia.
  - rewrite load_write_word_other by lia.
    apply load_write_word, Hsmall. lia.
  - apply load_write_word, Hsmall. lia.
  - intros a Ha. rewrite !lookup_write_word_other by lia. reflexivity.
Qed.

(** C4: for every 32-bit x <> 0, clz(x) + bit_length(x) = 32, and
    2^(31 - clz x) <= x < 2^(32 - clz x). *)
Theorem clz_plus_bit_length (x : Z) (Hx : is_u32 x) (Hnz : x <> 0) :
  exists c,
    clz x = Some c /\
    c + bit_length x = 32 /\
    2 ^ (31 - c) <= x < 2 ^ (32 - c).
Proof.
  exists (32 - bit_length x).
  split; [apply clz_spec; exact Hx|].
  split; [ring|].
  assert (0 < x) as Hpos by (unfold is_u32 in Hx; lia).
  pose proof (bit_length_bounds x Hpos) as Hb.
  replace (31 - (32 - bit_length x)) with (bit_length x - 1) by ring.
  replace (32 - (32 - bit_length x)) with (bit_length x) by ring.
  exact Hb.
Qed.

Lemma clz_plus_bit_length_witness :
  is_u32 509 /\ 509 <> 0 /\
  exists c,
    clz 509 = Some c /\
    c + bit_length 509 = 32 /\
    2 ^ (31 - c) <= 509 < 2 ^ (32 - c).
Proof.
  assert (is_u32 509) as H1 by (unfold is_u32, modulus, width; simpl; lia).
  assert (509 <> 0) as H2 by lia.
  split; [exact H1|]. split; [exact H2|].
  exact (clz_plus_bit_length 509 H1 H2).
Defined.

(** C5: clz(0) returns 32, and on every 32-bit x the result of clz lies in
    [0, 32]. *)
Theorem clz_range (x : Z) (Hx : is_u32 x) :
  clz 0 = Some 32 /\
  exists c, clz x = Some c /\ 0 <= c <= 32.
Proof.
  split; [vm_compute; reflexivity|].
  exists (32 - bit_length x).
  split; [apply clz_spec; exact Hx|].
  pose proof (bit_length_u32 x Hx). lia.
Qed.

Lemma clz_range_witness :
  is_u32 4294967295 /\
  clz 0 = Some 32 /\
  exists c, clz 4294967295 = Some c /\ 0 <= c <= 32.
Proof.
  assert (is_u32 4294967295) as H
    by (unfold is_u32, modulus, width; simpl; lia).
  split; [exact H | exact (clz_range 4294967295 H)].
Defined.

(** C6: [clz] returns on every 32-bit input, and its loop runs exactly five
    rounds, with the strides 16, 8, 4, 2, 1, whatever x is. *)
Theorem clz_total_five_rounds (x : Z) (Hx : is_u32 x) :
  exists r strides,
    clz x = Some r /\
    clz_strides x = Some strides /\
    strides = [16; 8; 4; 2; 1] /\
    length strides = 5%nat.
Proof.
  exists (32 - bit_length x), [16; 8; 4; 2; 1].
  split; [apply clz_spec; exact Hx|].
  split; [apply clz_strides_spec; exact Hx|].
  split; reflexivity.
Qed.

Lemma clz_total_five_rounds_witness :
  is_u32 77 /\
  exists r strides,
    clz 77 = Some r /\
    clz_strides 77 = Some strides /\
    strides = [16; 8; 4; 2; 1] /\
    length strides = 5%nat.
Proof.
  assert (is_u32 77) as H by (unfold is_u32, modulus, width; simpl; lia).
  split; [exact H | exact (clz_total_five_rounds 77 H)].
Defined.

(** C7: [smallestNumber] is non-decreasing on [1, 2^31 - 1]. *)
Theorem smallestNumber_monotone (m n : Z) (Hm : 1 <= m <= n) (Hn : n < 2 ^ 31) :
  exists a b,
    smallestNumber m = Some a /\ smallestNumber n = Some b /\ a <= b.
Proof.
  destruct (smallestNumber_spec m) as [_ Hsm]; [lia|].
  destruct (smallestNumber_spec n) as [_ Hsn]; [lia|].
  exists (2 ^ bit_length m - 1), (2 ^ bit_length n - 1).
  split; [exact Hsm|]. split; [exact Hsn|].
  assert (2 ^ bit_length m <= 2 ^ bit_length n); [|lia].
  apply Z.pow_le_mono_r; [lia|].
  apply bit_length_le_mono. lia.
Qed.

Lemma smallestNumber_monotone_witness :
  1 <= 509 <= 1000 /\ 1000 < 2 ^ 31 /\
  exists a b,
    smallestNumber 509 = Some a /\ smallestNumber 1000 = Some b /\ a <= b.
Proof.
  assert (1 <= 509 <= 1000) as H1 by lia.
  assert (1000 < 2 ^ 31) as H2 by lia.
  split; [exact H1|]. split; [exact H2|].
  exact (smallestNumber_monotone 509 1000 H1 H2).
Defined.

(** C8: for every positive n < 2^31, [smallestNumber n] + 1 is a power of
    two. *)
Theorem smallestNumber_succ_pow2 (n : Z) (Hn : 1 <= n < 2 ^ 31) :
  exists r k, smallestNumber n = Some r /\ 0 <= k /\ r + 1 = 2 ^ k.
Proof.
  destruct (smallestNumber_spec n) as [_ Hs]; [lia|].
  exists (2 ^ bit_length n - 1), (bit_length n).
  split; [exact Hs|]. split; [apply bit_length_nonneg | ring].
Qed.

Lemma smallestNumber_succ_pow2_witness :
  1 <= 2147483647 < 2 ^ 31 /\
  exists r k, smallestNumber 2147483647 = Some r /\ 0 <= k /\ r + 1 = 2 ^ k.
Proof.
  assert (1 <= 2147483647 < 2 ^ 31) as H by lia.
  split; [exact H | exact (smallestNumber_succ_pow2 2147483647 H)].
Defined.

(** C9: [smallestNumber] is idempotent on [1, 2^31 - 1]: each of its results
    there is one of its fixed points. *)
Theorem smallestNumber_idempotent (n : Z) (Hn : 1 <= n < 2 ^ 31) :
  exists r, smallestNumber n = Some r /\ smallestNumber r = Some r.
Proof.
  destruct (smallestNumber_spec n) as [_ Hs]; [lia|].
  assert (1 <= bit_length n <= 31) as Hb.
  { pose proof (bit_length_i32_nonneg n).
    rewrite bit_length_pos in * by lia.
    pose proof (Z.log2_nonneg n). lia. }
  pose proof (pow2_bit_length_bounds (bit_length n)) as Hp.
  exists (2 ^ bit_length n - 1). split; [exact Hs|].
  destruct (smallestNumber_spec (2 ^ bit_length n - 1)) as [_ Hs']; [lia|].
  rewrite Hs', bit_length_ones by lia. reflexivity.
Qed.

Lemma smallestNumber_idempotent_witness :
  1 <= 4 < 2 ^ 31 /\
  exists r, smallestNumber 4 = Some r /\ smallestNumber r = Some r.
Proof.
  assert (1 <= 4 < 2 ^ 31) as H by lia.
  split; [exact H | exact (smallestNumber_idempotent 4 H)].
Defined.

(** C10: on 0 the count of leading zeros is 32, the shift count is 0, and
    [smallestNumber 0] returns (1 << 0) - 1 = 0. *)
Theorem smallestNumber_0 :
  clz (to_u32 0) = Some 32 /\
  sub_u32 32 32 = 0 /\
  smallestNumber 0 = Some 0.
Proof. repeat split; vm_compute; reflexivity. Qed.

(** ** Further properties of [clz] *)

Lemma bit_length_eq_0 (x : Z) : 0 <= x -> (bit_length x = 0 <-> x = 0).
Proof.
  intros Hx. unfold bit_length.
  destruct (Z.eqb_spec x 0) as [E|E]; [tauto|].
  pose proof (Z.log2_nonneg x). lia.
Qed.

Lemma bit_length_pow2 (k : Z) : 0 <= k -> bit_length (2 ^ k) = k + 1.
Proof.
  intros Hk. apply bit_length_unique; [lia|].
  replace (k + 1 - 1) with k by ring.
  split; [lia|]. apply Z.pow_lt_mono_r; lia.
Qed.

Lemma is_u32_bounds (x : Z) : is_u32 x <-> 0 <= x < 2 ^ 32.
Proof. unfold is_u32, modulus, width. tauto. Qed.

(** All the leading bits are zero exactly on 0: [clz x] is 32 if and only
    if [x = 0]. *)
Theorem clz_32_iff_zero (x : Z) (Hx : is_u32 x) :
  clz x = Some 32 <-> x = 0.
Proof.
  rewrite clz_spec by exact Hx.
  apply (proj1 (is_u32_bounds x)) in Hx.
  assert (0 <= x) as H0 by lia.
  pose proof (bit_length_eq_0 x H0) as Hz.
  split.
  - intros E. apply Hz. injection E as E. lia.
  - intros E. apply Hz in E. rewrite E. reflexivity.
Qed.

Lemma clz_32_iff_zero_witness :
  is_u32 1 /\ (clz 1 = Some 32 <-> 1 = 0).
Proof.
  assert (is_u32 1) as H by (unfold is_u32, modulus, width; simpl; lia).
  split; [exact H | exact (clz_32_iff_zero 1 H)].
Defined.

(** No leading bit is zero exactly when the top bit is set: [clz x] is 0
    if and only if [x >= 2^31]. *)
Theorem clz_0_iff_top_bit (x : Z) (Hx : is_u32 x) :
  clz x = Some 0 <-> 2 ^ 31 <= x.
Proof.
  rewrite clz_spec by exact Hx.
  pose proof (bit_length_u32 x Hx) as Hb.
  apply (proj1 (is_u32_bounds x)) in Hx.
  split.
  - intros E. assert (bit_length x = 32) as Hw by (inversion E; lia).
    assert (0 < x) as Hpos.
    { destruct (Z.eq_dec x 0) as [->|]; [|lia].
      rewrite bit_length_0 in Hw. lia. }
    pose proof (bit_length_bounds x Hpos) as Hbd.
    rewrite Hw in Hbd. change (32 - 1) with 31 in Hbd. lia.
  - intros E. rewrite (bit_length_unique x 32); [reflexivity | lia |].
    change (32 - 1) with 31. lia.
Qed.

Lemma clz_0_iff_top_bit_witness :
  is_u32 2147483648 /\ (clz 2147483648 = Some 0 <-> 2 ^ 31 <= 2147483648).
Proof.
  assert (is_u32 2147483648) as H
    by (unfold is_u32, modulus, width; simpl; lia).
  split; [exact H | exact (clz_0_iff_top_bit 2147483648 H)].
Defined.

(** A larger value never has more leading zeros: [clz] is non-increasing on
    the 32-bit values. *)
Theorem clz_antitone (x y : Z) (Hx : is_u32 x) (Hy : is_u32 y) (Hle : x <= y) :
  exists a b, clz x = Some a /\ clz y = Some b /\ b <= a.
Proof.
  exists (32 - bit_length x), (32 - bit_length y).
  split; [apply clz_spec; exact Hx|].
  split; [apply clz_spec; exact Hy|].
  apply (proj1 (is_u32_bounds x)) in Hx.
  pose proof (bit_length_le_mono x y). lia.
Qed.

Lemma clz_antitone_witness :
  is_u32 509 /\ is_u32 1000 /\ 509 <= 1000 /\
  exists a b, clz 509 = Some a /\ clz 1000 = Some b /\ b <= a.
Proof.
  assert (is_u32 509) as H1 by (unfold is_u32, modulus, width; simpl; lia).
  assert (is_u32 1000) as H2 by (unfold is_u32, modulus, width; simpl; lia).
  assert (509 <= 1000) as H3 by lia.
  split; [exact H1|]. split; [exact H2|]. split; [exact H3|].
  exact (clz_antitone 509 1000 H1 H2 H3).
Defined.

(** On a power of two [2^k] with [0 <= k <= 31], [clz] returns [31 - k]. *)
Theorem clz_pow2 (k : Z) (Hk : 0 <= k <= 31) :
  clz (2 ^ k) = Some (31 - k).
Proof.
  assert (is_u32 (2 ^ k)) as Hu.
  { apply is_u32_bounds. split; [lia|]. apply Z.pow_lt_mono_r; lia. }
  rewrite clz_spec by exact Hu.
  rewrite bit_length_pow2 by lia. f_equal. ring.
Qed.

Lemma clz_pow2_witness :
  0 <= 9 <= 31 /\ clz (2 ^ 9) = Some (31 - 9).
Proof.
  assert (0 <= 9 <= 31) as H by lia.
  split; [exact H | exact (clz_pow2 9 H)].
Defined.

(** When the loop of [clz] ends on a 32-bit input, the stride is 0, [x] has
    been reduced to 0 (if the input was 0) or to 1, and [n] is between 1 and
    32, so that the final [n - x] does not wrap. *)
Theorem clz_loop_final_state (x : Z) (Hx : is_u32 x) :
  exists sf strides,
    clz_run x = Some (sf, strides) /\
    st_c sf = 0 /\
    st_x sf = (if x =? 0 then 0 else 1) /\
    1 <= st_n sf <= 32 /\
    clz x = Some (st_n sf - st_x sf).
Proof.
  destruct (clz_loop_spec 4 x 32) as (sf & Hl & Hxf & Hnf & Hcf);
    [lia | exact Hx | simpl; lia |].
  exists sf, (halving_strides 4).
  split; [exact Hl|]. split; [exact Hcf|]. split; [exact Hxf|].
  pose proof (bit_length_u32 x Hx) as Hb.
  split.
  - destruct (Z.eqb_spec x 0) as [E|E].
    + subst x. rewrite bit_length_0 in Hnf. lia.
    + apply (proj1 (is_u32_bounds x)) in Hx.
      assert (1 <= bit_length x)
        by (rewrite bit_length_pos by lia; pose proof (Z.log2_nonneg x); lia).
      lia.
  - rewrite Hnf. apply clz_spec. exact Hx.
Qed.

Lemma clz_loop_final_state_witness :
  is_u32 1000 /\
  exists sf strides,
    clz_run 1000 = Some (sf, strides) /\
    st_c sf = 0 /\
    st_x sf = (if 1000 =? 0 then 0 else 1) /\
    1 <= st_n sf <= 32 /\
    clz 1000 = Some (st_n sf - st_x sf).
Proof.
  assert (is_u32 1000) as H by (unfold is_u32, modulus, width; simpl; lia).
  split; [exact H | exact (clz_loop_final_state 1000 H)].
Defined.

(** ** Further properties of [smallestNumber] *)

Lemma lt_pow2_bit_length (n : Z) : 0 <= n -> n < 2 ^ bit_length n.
Proof.
  intros Hn. destruct (Z.eq_dec n 0) as [->|Hne].
  - rewrite bit_length_0. reflexivity.
  - apply bit_length_bounds. lia.
Qed.

Lemma bit_length_ge_1 (n : Z) : 0 < n -> 1 <= bit_length n.
Proof.
  intros Hn. rewrite bit_length_pos by exact Hn.
  pose proof (Z.log2_nonneg n). lia.
Qed.



(** The result is less than twice a positive argument. *)
Theorem smallestNumber_lt_double (n : Z) (Hn : 1 <= n < 2 ^ 31) :
  exists r, smallestNumber n = Some r /\ n <= r < 2 * n.
Proof.
  destruct (smallestNumber_spec n) as [_ Hs]; [lia|].
  exists (2 ^ bit_length n - 1). split; [exact Hs|].
  assert (0 < n) as Hpos by lia.
  pose proof (bit_length_bounds n Hpos) as Hb.
  pose proof (bit_length_ge_1 n Hpos) as H1.
  assert (2 ^ bit_length n = 2 * 2 ^ (bit_length n - 1)) as E
    by (rewrite <- Z.pow_succ_r by lia; f_equal; lia).
  lia.
Qed.

Lemma smallestNumber_lt_double_witness :
  1 <= 1024 < 2 ^ 31 /\
  exists r, smallestNumber 1024 = Some r /\ 1024 <= r < 2 * 1024.
Proof.
  assert (1 <= 1024 < 2 ^ 31) as H by lia.
  split; [exact H | exact (smallestNumber_lt_double 1024 H)].
Defined.

(** The result is a mask for the argument: its set bits are exactly the
    positions below the argument's bit length, so [n & r = n] and
    [n | r = r]. *)
Theorem smallestNumber_is_mask (n : Z) (Hn : 0 <= n < 2 ^ 31) :
  exists r,
    smallestNumber n = Some r /\
    (forall i, Z.testbit r i = (0 <=? i) && (i <? bit_length n)) /\
    Z.land n r = n /\
    Z.lor n r = r.
Proof.
  destruct (smallestNumber_spec n Hn) as [_ Hs].
  pose proof (bit_length_nonneg n) as Hb.
  exists (2 ^ bit_length n - 1). split; [exact Hs|].
  replace (2 ^ bit_length n - 1) with (Z.ones (bit_length n))
    by (rewrite Z.ones_equiv; lia).
  split; [intros i; apply Z.testbit_ones; exact Hb|].
  pose proof (lt_pow2_bit_length n) as Hlt.
  assert (Z.land n (Z.ones (bit_length n)) = n) as Hland.
  { rewrite Z.land_ones by exact Hb. apply Z.mod_small. lia. }
  split; [exact Hland|].
  apply Z.bits_inj'. intros i Hi.
  rewrite Z.lor_spec, Z.testbit_ones by exact Hb.
  apply (f_equal (fun z => Z.testbit z i)) in Hland.
  rewrite Z.land_spec, Z.testbit_ones in Hland by exact Hb.
  destruct (Z.testbit n i), ((0 <=? i) && (i <? bit_length n));
    simpl in *; congruence.
Qed.

Lemma smallestNumber_is_mask_witness :
  0 <= 1000 < 2 ^ 31 /\
  exists r,
    smallestNumber 1000 = Some r /\
    (forall i, Z.testbit r i = (0 <=? i) && (i <? bit_length 1000)) /\
    Z.land 1000 r = 1000 /\
    Z.lor 1000 r = r.
Proof.
  assert (0 <= 1000 < 2 ^ 31) as H by lia.
  split; [exact H | exact (smallestNumber_is_mask 1000 H)].
Defined.

(** The result only depends on the bit width: on every [n] with
    [2^(w-1) <= n < 2^w], for a width [w] from 1 to 31, it is [2^w - 1]. *)
Theorem smallestNumber_on_width (n w : Z)
  (Hw : 1 <= w <= 31) (Hn : 2 ^ (w - 1) <= n < 2 ^ w) :
  smallestNumber n = Some (2 ^ w - 1).
Proof.
  assert (0 < 2 ^ (w - 1)) by (apply Z.pow_pos_nonneg; lia).
  assert (2 ^ w <= 2 ^ 31) by (apply Z.pow_le_mono_r; lia).
  destruct (smallestNumber_spec n) as [_ Hs]; [lia|].
  rewrite Hs, (bit_length_unique n w) by (exact Hn || lia). reflexivity.
Qed.

Lemma smallestNumber_on_width_witness :
  1 <= 10 <= 31 /\ 2 ^ (10 - 1) <= 777 < 2 ^ 10 /\
  smallestNumber 777 = Some (2 ^ 10 - 1).
Proof.
  assert (1 <= 10 <= 31) as H1 by lia.
  assert (2 ^ (10 - 1) <= 777 < 2 ^ 10) as H2 by (simpl; lia).
  split; [exact H1|]. split; [exact H2|].
  exact (smallestNumber_on_width 777 10 H1 H2).
Defined.

(** The fixed points on [1, 2^31 - 1] are exactly the numbers whose
    successor is a power of two. *)
Theorem smallestNumber_fixed_point_iff (n : Z) (Hn : 1 <= n < 2 ^ 31) :
  smallestNumber n = Some n <-> exists k, 0 <= k /\ n + 1 = 2 ^ k.
Proof.
  destruct (smallestNumber_spec n) as [_ Hs]; [lia|].
  rewrite Hs. split.
  - intros E. injection E as E.
    exists (bit_length n). split; [apply bit_length_nonneg | lia].
  - intros (k & Hk & E). f_equal.
    assert (0 < k) as Hk0.
    { destruct (Z.eq_dec k 0) as [->|]; [|lia]. simpl in E. lia. }
    replace n with (2 ^ k - 1) by lia.
    rewrite bit_length_ones by exact Hk0. reflexivity.
Qed.

Lemma smallestNumber_fixed_point_iff_witness :
  1 <= 6 < 2 ^ 31 /\
  (smallestNumber 6 = Some 6 <-> exists k, 0 <= k /\ 6 + 1 = 2 ^ k).
Proof.
  assert (1 <= 6 < 2 ^ 31) as H by lia.
  split; [exact H | exact (smallestNumber_fixed_point_iff 6 H)].
Defined.

(** The result has as many leading zeros as the argument. *)
Theorem clz_smallestNumber (n : Z) (Hn : 0 <= n < 2 ^ 31) :
  exists r c,
    smallestNumber n = Some r /\
    clz (to_u32 n) = Some c /\
    clz (to_u32 r) = Some c.
Proof.
  destruct (smallestNumber_spec n Hn) as [Hc Hs].
  exists (2 ^ bit_length n - 1), (32 - bit_length n).
  split; [exact Hs|]. split; [exact Hc|].
  destruct (Z.eq_dec n 0) as [->|Hne]; [vm_compute; reflexivity|].
  pose proof (bit_length_i32_nonneg n Hn) as Hb.
  pose proof (bit_length_ge_1 n) as Hb1.
  pose proof (pow2_bit_length_bounds (bit_length n) Hb) as Hp.
  destruct (smallestNumber_spec (2 ^ bit_length n - 1)) as [Hc' _]; [lia|].
  rewrite Hc', bit_length_ones by lia. reflexivity.
Qed.

Lemma clz_smallestNumber_witness :
  0 <= 1000 < 2 ^ 31 /\
  exists r c,
    smallestNumber 1000 = Some r /\
    clz (to_u32 1000) = Some c /\
    clz (to_u32 r) = Some c.
Proof.
  assert (0 <= 1000 < 2 ^ 31) as H by lia.
  split; [exact H | exact (clz_smallestNumber 1000 H)].
Defined.



(** ** Further properties of [main] *)

(** The byte found at address [b] after a word was stored at [a]. *)
Lemma lookup_write_word (m : gmap Z Z) (a v b : Z) :
  write_word a v m !! b =
  if decide (a + 3 = b) then Some (byte_of v 3)
  else if decide (a + 2 = b) then Some (byte_of v 2)
  else if decide (a + 1 = b) then Some (byte_of v 1)
  else if decide (a = b) then Some (byte_of v 0)
  else m !! b.
Proof. unfold write_word. rewrite !lookup_insert. reflexivity. Qed.

(** [main] succeeds from every machine state, keeps the stores recorded
    before it and adds its three; running it a second time performs the
    same three stores again and leaves the memory as the first run did. *)
Theorem main_twice (s : machine) :
  exists s1 s2,
    main s = Some (tt, s1) /\
    main s1 = Some (tt, s2) /\
    stores s1 = stores s ++ [(4, 1); (8, 511); (12, 1023)] /\
    stores s2 = stores s1 ++ [(4, 1); (8, 511); (12, 1023)] /\
    mem s2 = mem s1.
Proof.
  eexists. eexists.
  split; [apply main_run|]. split; [apply main_run|].
  cbn [mem stores].
  split; [reflexivity|]. split; [reflexivity|].
  apply map_eq. intros b.
  rewrite !lookup_write_word.
  repeat case_decide; try reflexivity; lia.
Qed.
